(** * A chat-bot template: configuration check, command sync and the
      component view of the example cog.

    The development follows the three source files:
    - [Text]: the Python string operations the code relies on
      ([str.join], f-string concatenation, the [in] test on strings) and the
      reading of a text block as newline-separated lines;
    - [Py]: results that return or raise, and computations that call the
      platform;
    - [Example]: [bot/example.py], the view holding a text and its children;
    - [Core]: the [sync] command of [main.py];
    - [Config]: [assert_envs_exist] and [run_bot] of [bot/__main__.py]. *)

From Stdlib Require Import Ascii String.
From stdpp Require Import base gmap strings list pretty.


(** ** Python strings *)

Module Text.

Definition newline : ascii := Ascii.ascii_of_nat 10.

(** The one-character string ["\n"]. *)
Definition nl : string := String newline "".

(** [sep.join(l)]. *)
Fixpoint join (sep : string) (l : list string) : string :=
  match l with
  | [] => ""
  | [x] => x
  | x :: rest => x +:+ sep +:+ join sep rest
  end.

(** [s.split("\n")]: the newline-separated pieces of [s]; never empty. *)
Fixpoint split_lines (s : string) : list string :=
  match s with
  | "" => [""]
  | String c s' =>
      if decide (c = newline) then "" :: split_lines s'
      else match split_lines s' with
           | l :: ls => String c l :: ls
           | [] => [String c ""]
           end
  end.

(** The text block read as a log: the empty text holds no line, any other
    text holds its newline-separated lines. *)
Definition text_log (t : string) : list string :=
  if decide (t = "") then [] else split_lines t.

(** [c not in s] for a character. *)
Fixpoint no_newline (s : string) : bool :=
  match s with
  | "" => true
  | String c s' => if decide (c = newline) then false else no_newline s'
  end.

(** [sub in s] on strings. *)
Fixpoint contains (sub s : string) : bool :=
  String.prefix sub s ||
  match s with
  | "" => false
  | String _ s' => contains sub s'
  end.

End Text.

(** ** Python results and platform calls *)

Module Py.

(** The exceptions the code raises or handles; [HTTPException] stands for
    [discord.HTTPException] and its subclasses. *)
Inductive Exc :=
| MissingConfigurationException (msg : string)
| ValueError
| KeyError (key : string)
| HTTPException
| OtherException (what : string).

Inductive result (A : Type) :=
| Returns (a : A)
| Raises (e : Exc).
Arguments Returns {A} a.
Arguments Raises {A} e.

Definition returned {A} (r : result A) : bool :=
  match r with Returns _ => true | Raises _ => false end.

(** A computation that calls the platform: it reads the platform's answers
    [w] (what a call yields after the calls made so far), extends the list
    of calls made, and returns or raises. *)
Definition Eff (Act Ans A : Type) : Type :=
  (list Act → Act → result Ans) → list Act → list Act * result A.

Section Eff.
Context {Act Ans : Type}.

Definition ret {A} (a : A) : Eff Act Ans A := λ _ tr, (tr, Returns a).

Definition lift {A} (r : result A) : Eff Act Ans A := λ _ tr, (tr, r).

Definition bind {A B} (m : Eff Act Ans A) (k : A → Eff Act Ans B) : Eff Act Ans B :=
  λ w tr, match m w tr with
          | (tr', Returns a) => k a w tr'
          | (tr', Raises e) => (tr', Raises e)
          end.

(** [await] of one platform call. *)
Definition perform (a : Act) : Eff Act Ans Ans := λ w tr, (tr ++ [a], w tr a).

(** [try: m  finally: f] *)
Definition try_finally {A} (m : Eff Act Ans A) (f : Eff Act Ans unit) : Eff Act Ans A :=
  λ w tr, match m w tr with
          | (tr', r) =>
              match f w tr' with
              | (tr'', Returns _) => (tr'', r)
              | (tr'', Raises e) => (tr'', Raises e)
              end
          end.
End Eff.

#[global] Instance eff_ret {Act Ans} : MRet (Eff Act Ans) := λ A, ret.
#[global] Instance eff_bind {Act Ans} : MBind (Eff Act Ans) := λ A B k m, bind m k.

End Py.

(** ** bot/example.py *)

Module Example.
Import Text.

Record SelectOption := { label : string; value : string }.

(** [[SelectOption(label=f"Value{x}", value=f"Value{x}") for x in range(1, 4)]] *)
Definition SELECT_OPTIONS : list SelectOption :=
  map (fun x : nat => {| label := "Value" +:+ pretty x;
                         value := "Value" +:+ pretty x |})
      (seq 1 3).

Definition option_values : list string := map value SELECT_OPTIONS.

Record Embed := { title : string; description : string }.

Definition make_embed (text : string) : Embed :=
  {| title := "Component Example"; description := text |}.

(** The three button objects a view creates and keeps a reference to. *)
Inductive ButtonRef := button1 | button2 | button3.

(** [MyButton.name], as set by the view's constructor. *)
Definition name (b : ButtonRef) : string :=
  match b with
  | button1 => "Button1"
  | button2 => "Button2"
  | button3 => "Button3"
  end.

(** The items a view can hold: the select made by the [ui.select] decorator
    and the three buttons.  Python compares items by identity. *)
Inductive Item := dropdown | button (b : ButtonRef).

#[global] Instance ButtonRef_eq_dec : EqDecision ButtonRef.
Proof. solve_decision. Defined.

#[global] Instance Item_eq_dec : EqDecision Item.
Proof. solve_decision. Defined.

(** A [ComponentView]: its [text] attribute and the [children] list of
    [ui.View]. *)
Record ComponentView := { text : string; children : list Item }.

(** What a handler sends back through [interaction.response]. *)
Inductive Response :=
| edit_message (embed : Embed) (view : list Item)
| send_message (embed : Embed) (view : list Item)
| send_modal.

(** [ComponentView.__init__]: the superclass collects the decorated select,
    the text is empty, the buttons are created but not added. *)
Definition ComponentView_init : ComponentView :=
  {| text := ""; children := [dropdown] |}.

(** [ui.View.add_item]: the item goes to the end of [children].  The
    library's limit on the number of children is far from the four items a
    view can hold. *)
Definition add_item (i : Item) (v : ComponentView) : ComponentView :=
  {| text := text v; children := children v ++ [i] |}.

Definition add_button_to_view (b : ButtonRef) (v : ComponentView) : ComponentView :=
  if decide (button b ∈ children v) then v else add_item (button b) v.

Definition dropdown_selected (values : list string) (v : ComponentView)
  : ComponentView * Response :=
  let values := join ", " values in
  let v := {| text := values +:+ " selected in select option";
              children := children v |} in
  let v := add_button_to_view button1 v in
  let v := add_button_to_view button2 v in
  let v := add_button_to_view button3 v in
  (v, edit_message (make_embed (text v)) (children v)).

(** [MyButton.callback] for a button called [name] whose [view] is [v]. *)
Definition callback (name : string) (v : ComponentView) : ComponentView * Response :=
  ({| text := text v +:+ nl +:+ " " +:+ name +:+ " was pressed!";
      children := children v |},
   send_modal).

(** [MyModal.on_submit]: the modal was built with a reference to the view, so
    it updates that same view. *)
Definition on_submit (value : string) (v : ComponentView) : ComponentView * Response :=
  let v := {| text := text v +:+ nl +:+ " Modal was called and value entered is " +:+ value;
              children := children v |} in
  (v, edit_message (make_embed (text v)) (children v)).

(** [ExampleCog.start_cmd]: a new view is sent with the prompt. *)
Definition start_cmd : ComponentView * Response :=
  let v := ComponentView_init in
  (v, send_message (make_embed "Please choose an option to start") (children v)).

(** *** The transitions of one view *)

Inductive Event :=
| ev_select (values : list string)
| ev_press (b : ButtonRef)
| ev_submit_modal (value : string).

Definition step (e : Event) (v : ComponentView) : ComponentView * Response :=
  match e with
  | ev_select values => dropdown_selected values v
  | ev_press b => callback (name b) v
  | ev_submit_modal value => on_submit value v
  end.

Definition select (values : list string) (v : ComponentView) := fst (step (ev_select values) v).
Definition press (b : ButtonRef) (v : ComponentView) := fst (step (ev_press b) v).
Definition submit_modal (value : string) (v : ComponentView) :=
  fst (step (ev_submit_modal value) v).

(** The view after a sequence of events, oldest first. *)
Definition run (es : list Event) (v : ComponentView) : ComponentView :=
  fold_left (fun v e => fst (step e v)) es v.

(** The buttons shown on the message. *)
Definition attached_widgets (v : ComponentView) : list ButtonRef :=
  omap (fun i => match i with button b => Some b | dropdown => None end) (children v).

End Example.


(** ** main.py: the [sync] command *)

Module Core.
Import Text Py.

(** A guild is known by its id ([discord.Object]). *)
Definition Guild := nat.

(** The optional [spec] argument, one of ["~"], ["*"], ["^"]. *)
Inductive Spec := spec_tilde | spec_star | spec_caret.

(** The calls [sync] makes on the command tree and on the context. *)
Inductive Call :=
| tree_sync (guild : option Guild)
| copy_global_to (guild : Guild)
| clear_commands (guild : Guild)
| ctx_send (content : string).

(** A call answers with a number: for [tree_sync] the length of the list of
    synced commands. *)
Definition Cmd (A : Type) : Type := Eff Call nat A.

(** The push of the command tree to one guild: [tree.sync(guild=guild)]. *)
Definition push (guild : Guild) : Call := tree_sync (Some guild).

(** One turn of the loop:
    [try: await tree.sync(guild=guild)  except HTTPException: pass  else: ret += 1] *)
Definition sync_guild (guild : Guild) (ret : nat) : Cmd nat :=
  λ w tr, match perform (push guild) w tr with
          | (tr', Returns _) => (tr', Returns (ret + 1))
          | (tr', Raises HTTPException) => (tr', Returns ret)
          | (tr', Raises e) => (tr', Raises e)
          end.

(** [for guild in guilds: ...], from the tally [ret]. *)
Fixpoint sync_loop (guilds : list Guild) (ret : nat) : Cmd nat :=
  match guilds with
  | [] => Py.ret ret
  | guild :: rest => ret' ← sync_guild guild ret; sync_loop rest ret'
  end.

(** [CoreCog.sync], invoked by the owner in the guild [ctx_guild] (the two
    checks of the decorators have passed). *)
Definition sync (ctx_guild : Guild) (guilds : list Guild) (spec : option Spec) : Cmd unit :=
  match guilds with
  | [] =>
      synced ← match spec with
               | Some spec_tilde => perform (tree_sync (Some ctx_guild))
               | Some spec_star =>
                   perform (copy_global_to ctx_guild);;
                   perform (tree_sync (Some ctx_guild))
               | Some spec_caret =>
                   perform (clear_commands ctx_guild);;
                   perform (tree_sync (Some ctx_guild));;
                   Py.ret 0
               | None => perform (tree_sync None)
               end;
      perform (ctx_send ("Synced " +:+ pretty synced +:+ " commands " +:+
                         (if spec is None then "globally" else "to the current guild.")));;
      Py.ret ()
  | _ =>
      ret ← sync_loop guilds 0;
      perform (ctx_send ("Synced the tree to " +:+ pretty ret +:+ "/" +:+
                         pretty (length guilds) +:+ "."));;
      Py.ret ()
  end.

(** The answers the platform gives to the pushes when the guilds are tried
    one after the other, starting after the calls [tr]. *)
Fixpoint outcomes (w : list Call → Call → result nat) (tr : list Call)
    (guilds : list Guild) : list (result nat) :=
  match guilds with
  | [] => []
  | guild :: rest =>
      w tr (push guild) :: outcomes w (tr ++ [push guild]) rest
  end.

(** How many of the answers are successes. *)
Definition successes (rs : list (result nat)) : nat :=
  length (filter (λ r, returned r = true) rs).

(** An answer that is a success or a platform error. *)
Definition ok_or_http (r : result nat) : bool :=
  match r with
  | Returns _ | Raises HTTPException => true
  | Raises _ => false
  end.

End Core.

(** ** bot/__main__.py: configuration check and start-up *)

Module Config.
Import Text Py.

Definition extensions : list string := ["bot.core"; "bot.example"].

(** A type used as a converter: how it prints in an f-string and what
    applying it to a string does. *)
Record PyType := { repr : string; call : string → result unit }.

(** [str]: applied to a string it returns it. *)
Definition str : PyType :=
  {| repr := "<class 'str'>"; call := λ _, Returns () |}.

Definition envs : list (string * string * PyType) :=
  [("TOKEN", "The Bot Token", str)].

(** [for e in envs: ...] over [os.environ], as it is once [load_dotenv] has
    run.  [main.py] holds the same function. *)
Fixpoint assert_envs_loop (envs : list (string * string * PyType))
    (environ : gmap string string) : result unit :=
  match envs with
  | [] => Returns ()
  | (e0, e1, e2) :: rest =>
      let ident := e0 +:+ "/" +:+ e1 in
      match environ !! e0 with
      | None => Raises (MissingConfigurationException (ident +:+ " needs to be- defined"))
      | Some value =>
          match call e2 value with
          | Returns _ => assert_envs_loop rest environ
          | Raises ValueError =>
              Raises (MissingConfigurationException
                        (ident +:+ " is not the required type of " +:+ repr e2))
          | Raises e => Raises e
          end
      end
  end.

Definition assert_envs_exist (environ : gmap string string) : result unit :=
  assert_envs_loop envs environ.

(** The text of the error for the entry of [envs] when it is not set. *)
Definition missing_message : string := "TOKEN/The Bot Token needs to be- defined".

(** What [run_bot] asks of the bot object. *)
Inductive Action :=
| load_extension (ext : string)
| start (token : string)
| close.

Definition Boot (A : Type) : Type := Eff Action unit A.

(** [for ext in extensions: await bot.load_extension(ext)] (the debug log
    line is left out). *)
Fixpoint load_extensions (exts : list string) : Boot unit :=
  match exts with
  | [] => Py.ret ()
  | ext :: rest => perform (load_extension ext);; load_extensions rest
  end.

(** [os.environ['TOKEN']] *)
Definition environ_item (environ : gmap string string) (key : string) : result string :=
  match environ !! key with
  | Some value => Returns value
  | None => Raises (KeyError key)
  end.

Definition run_bot (environ : gmap string string) : Boot unit :=
  lift (assert_envs_exist environ);;
  token ← lift (environ_item environ "TOKEN");
  try_finally
    (load_extensions extensions;; perform (start token))
    (perform close).

(** What the check asks of one entry: its variable is set and the converter
    accepts the value. *)
Definition entry_ok (environ : gmap string string) (e : string * string * PyType) : Prop :=
  ∃ value, environ !! e.1.1 = Some value ∧ call e.2 value = Returns ().

End Config.


(** ** The message a view is shown on *)

Module Message.
Import Example.

(** Kinds of events. *)
Definition is_select (e : Event) : bool :=
  match e with ev_select _ => true | _ => false end.


(** An event that adds one line: a press, or a submission whose value has
    no line break. *)
Definition adds_one_line (e : Event) : bool :=
  match e with
  | ev_select _ => false
  | ev_press _ => true
  | ev_submit_modal value => Text.no_newline value
  end.

(** The line a press or a submission writes after the line break. *)
Definition line_of (e : Event) : string :=
  match e with
  | ev_select values => Text.join ", " values +:+ " selected in select option"
  | ev_press b => " " +:+ name b +:+ " was pressed!"
  | ev_submit_modal value => " Modal was called and value entered is " +:+ value
  end.






End Message.

(** ** main.py: start-up *)

Module Main.
Import Py.

(** What [run_bot] of [main.py] asks of the bot object: entering and leaving
    [async with bot], adding a cog, starting the session. *)
Inductive Action :=
| aenter
| add_cog (cog : string)
| start (token : string)
| aexit.

Definition Boot (A : Type) : Type := Eff Action unit A.

(** [async with bot: body]: the exit runs once the entry has returned,
    whatever the body does; it returns [None], so an exception of the body
    goes on after it. *)
Definition async_with {A} (body : Boot A) : Boot A :=
  perform aenter;; try_finally body (perform aexit).

(** [run_bot]; the check is the function [main.py] shares with
    [bot/__main__.py]. *)
Definition run_bot (environ : gmap string string) : Boot unit :=
  lift (Config.assert_envs_exist environ);;
  token ← lift (Config.environ_item environ "TOKEN");
  async_with
    (perform (add_cog "CoreCog");;
     perform (add_cog "ExampleCog");;
     perform (start token)).

End Main.


(** * Properties *)

Import Text Py.

(** ** Strings and lines *)

Section text_facts.
Implicit Types s t u : string.

Lemma string_app_nil_l s : "" +:+ s = s.
Proof. reflexivity. Qed.

Lemma string_app_cons c s t : String c s +:+ t = String c (s +:+ t).
Proof. reflexivity. Qed.

Ltac string_app :=
  repeat (rewrite string_app_cons || rewrite string_app_nil_l); simpl.

Lemma string_app_nil_r s : s +:+ "" = s.
Proof. induction s as [|c s IH]; string_app; [done | by rewrite IH]. Qed.

Lemma string_app_assoc s t u : (s +:+ t) +:+ u = s +:+ t +:+ u.
Proof. induction s as [|c s IH]; string_app; [done | by rewrite IH]. Qed.

Lemma string_app_eq_nil s t : s +:+ t = "" → s = "" ∧ t = "".
Proof. destruct s; string_app; [done | discriminate]. Qed.

Lemma split_lines_not_nil s : split_lines s ≠ [].
Proof.
  destruct s as [|c s]; simpl; [done |].
  case_decide; [done |]. by destruct (split_lines s).
Qed.

(** Splitting around a newline splits the two sides on their own. *)
Lemma split_lines_app_nl s t :
  split_lines (s +:+ nl +:+ t) = split_lines s ++ split_lines t.
Proof.
  induction s as [|c s IH]; [unfold nl |]; string_app; [done |].
  case_decide; [by rewrite IH |].
  rewrite IH. pose proof (split_lines_not_nil s).
  by destruct (split_lines s).
Qed.

Lemma split_lines_no_newline s : no_newline s = true → split_lines s = [s].
Proof.
  induction s as [|c s IH]; simpl; [done |].
  case_decide; [done |]. intros Hs. by rewrite (IH Hs).
Qed.

Lemma no_newline_app s t : no_newline (s +:+ t) = no_newline s && no_newline t.
Proof. induction s as [|c s IH]; string_app; [done |]. by case_decide. Qed.

Lemma no_newline_join sep (l : list string) :
  no_newline sep = true → Forall (λ x, no_newline x = true) l →
  no_newline (join sep l) = true.
Proof.
  intros Hsep. induction 1 as [|x l Hx Hl IH]; [done |].
  destruct l as [|y l]; [done |].
  change (no_newline (x +:+ sep +:+ join sep (y :: l)) = true).
  by rewrite !no_newline_app, Hx, Hsep, IH.
Qed.

(** The log of a text that is not empty is its list of lines. *)
Lemma text_log_nonempty s : s ≠ "" → text_log s = split_lines s.
Proof. intros. unfold text_log. by rewrite decide_False. Qed.

(** Appending a newline and [t] keeps every line and adds those of [t]. *)
Lemma text_log_append s t :
  s ≠ "" → text_log (s +:+ nl +:+ t) = text_log s ++ split_lines t.
Proof.
  intros Hs. rewrite !text_log_nonempty, split_lines_app_nl; [done .. |].
  intros [? _]%string_app_eq_nil. done.
Qed.

Lemma prefix_app s t : String.prefix s (s +:+ t) = true.
Proof.
  induction s as [|c s IH]; string_app; [by destruct t |].
  destruct (Ascii.ascii_dec c c); [done | congruence].
Qed.

Lemma contains_of_prefix sub s : String.prefix sub s = true → contains sub s = true.
Proof. intros H. destruct s; simpl in *; by rewrite H. Qed.

Lemma contains_middle sub s t : contains sub (s +:+ sub +:+ t) = true.
Proof.
  induction s as [|c s IH]; string_app.
  - apply contains_of_prefix, prefix_app.
  - rewrite IH. apply orb_true_r.
Qed.

Lemma contains_app_r sub s : contains sub (s +:+ sub) = true.
Proof. rewrite <- (string_app_nil_r sub) at 2. apply contains_middle. Qed.
End text_facts.

(** ** The component view *)

Import Example.

Section view_facts.
Implicit Types (v : ComponentView) (b : ButtonRef) (i : Item).

(** *** Children *)

Lemma text_add_button b v : text (add_button_to_view b v) = text v.
Proof. unfold add_button_to_view. by case_decide. Qed.

Lemma children_add_button b v :
  children (add_button_to_view b v) =
    if decide (button b ∈ children v) then children v else children v ++ [button b].
Proof. unfold add_button_to_view. by case_decide. Qed.

Lemma add_button_id b v : button b ∈ children v → add_button_to_view b v = v.
Proof. intros Hin. unfold add_button_to_view. by rewrite decide_True. Qed.

Lemma add_button_prefix b v :
  children v `prefix_of` children (add_button_to_view b v).
Proof.
  rewrite children_add_button. case_decide; [done |]. by apply prefix_app_r.
Qed.

Lemma add_button_elem b v : button b ∈ children (add_button_to_view b v).
Proof. rewrite children_add_button. case_decide; [done |]. set_solver. Qed.

Lemma add_button_NoDup b v :
  NoDup (children v) → NoDup (children (add_button_to_view b v)).
Proof.
  intros Hnd. rewrite children_add_button. case_decide; [done |].
  apply NoDup_app. split_and!; [done | | apply NoDup_singleton].
  intros i Hi ->%list_elem_of_singleton. done.
Qed.

Lemma children_callback n v : children (fst (callback n v)) = children v.
Proof. done. Qed.

Lemma children_on_submit value v : children (fst (on_submit value v)) = children v.
Proof. done. Qed.

Lemma select_prefix values v : children v `prefix_of` children (select values v).
Proof.
  unfold select, step, dropdown_selected. cbn [fst].
  repeat (etrans; [| apply add_button_prefix]). done.
Qed.

Lemma select_elem values v b : button b ∈ children (select values v).
Proof.
  unfold select, step, dropdown_selected. cbn [fst].
  destruct b.
  - do 2 (eapply elem_of_prefix; [| apply add_button_prefix]). apply add_button_elem.
  - eapply elem_of_prefix; [| apply add_button_prefix]. apply add_button_elem.
  - apply add_button_elem.
Qed.

Lemma select_NoDup values v : NoDup (children v) → NoDup (children (select values v)).
Proof.
  intros Hnd. unfold select, step, dropdown_selected. cbn [fst].
  by do 3 apply add_button_NoDup.
Qed.

Lemma step_prefix e v : children v `prefix_of` children (fst (step e v)).
Proof. destruct e; [apply select_prefix | done | done]. Qed.

Lemma step_NoDup e v : NoDup (children v) → NoDup (children (fst (step e v))).
Proof. destruct e; [apply select_NoDup | done | done]. Qed.

Lemma run_snoc es e v : run (es ++ [e]) v = fst (step e (run es v)).
Proof. unfold run. by rewrite fold_left_app. Qed.

Lemma run_cons e es v : run (e :: es) v = run es (fst (step e v)).
Proof. done. Qed.

(** Every view reached from a new one lists each child once. *)
Lemma run_NoDup es : NoDup (children (run es ComponentView_init)).
Proof.
  induction es as [|e es IH] using rev_ind.
  - apply NoDup_singleton.
  - rewrite run_snoc. by apply step_NoDup.
Qed.

(** A reached view shows the dropdown alone, or the dropdown followed by
    the three buttons in the order the selection adds them. *)
Lemma run_children_shape es :
  children (run es ComponentView_init) = [dropdown] ∨
  children (run es ComponentView_init) =
    [dropdown; button button1; button button2; button button3].
Proof.
  induction es as [|e es IH] using rev_ind; [by left |].
  rewrite run_snoc. destruct e as [values | b | value]; [| done | done].
  right. change (fst (step (ev_select values) ?v)) with (select values v).
  unfold select, step, dropdown_selected. cbn [fst].
  rewrite !children_add_button. cbn [children].
  by destruct IH as [-> | ->].
Qed.

Lemma elem_of_attached b v : b ∈ attached_widgets v ↔ button b ∈ children v.
Proof.
  unfold attached_widgets. rewrite list_elem_of_omap. split.
  - intros ([|b'] & Hin & Heq); simplify_eq. done.
  - intros Hin. exists (button b). done.
Qed.

Lemma attached_NoDup v : NoDup (children v) → NoDup (attached_widgets v).
Proof.
  unfold attached_widgets. induction 1 as [|i l Hi Hl IH]; simpl; [constructor |].
  destruct i as [|b]; [done |]. constructor; [| done].
  rewrite list_elem_of_omap. intros ([|b'] & Hin & Heq); simplify_eq. done.
Qed.

(** A list of buttons without repetition has at most three elements. *)
Lemma buttons_NoDup_length (l : list ButtonRef) : NoDup l → length l ≤ 3.
Proof.
  intros Hnd.
  assert (l ⊆ [button1; button2; button3]) as Hsub.
  { intros []; set_solver. }
  apply (submseteq_length l [button1; button2; button3]).
  by apply NoDup_submseteq.
Qed.

(** *** Text *)

Lemma text_select values v :
  text (select values v) = join ", " values +:+ " selected in select option".
Proof.
  unfold select, step, dropdown_selected. cbn [fst].
  by rewrite !text_add_button.
Qed.

Lemma text_press b v :
  text (press b v) = text v +:+ nl +:+ " " +:+ name b +:+ " was pressed!".
Proof. done. Qed.

Lemma text_submit_modal value v :
  text (submit_modal value v) =
    text v +:+ nl +:+ " Modal was called and value entered is " +:+ value.
Proof. done. Qed.

Lemma text_select_nonempty values v : text (select values v) ≠ "".
Proof. rewrite text_select. intros [_ ?]%string_app_eq_nil. done. Qed.

Lemma text_press_nonempty b v : text (press b v) ≠ "".
Proof.
  rewrite text_press. intros [_ [? _]%string_app_eq_nil]%string_app_eq_nil. done.
Qed.

Lemma option_values_no_newline values :
  Forall (λ x, x ∈ option_values) values → Forall (λ x, no_newline x = true) values.
Proof.
  intros H. eapply Forall_impl; [exact H |]. intros x Hx. simpl in Hx.
  change option_values with ["Value1"; "Value2"; "Value3"] in Hx.
  repeat (apply elem_of_cons in Hx as [-> | Hx]; [done |]).
  by apply elem_of_nil in Hx.
Qed.

Lemma pressed_line b :
  split_lines (" " +:+ name b +:+ " was pressed!") = [" " +:+ name b +:+ " was pressed!"].
Proof. by destruct b. Qed.

Lemma modal_line value :
  no_newline value = true →
  split_lines (" Modal was called and value entered is " +:+ value) =
    [" Modal was called and value entered is " +:+ value].
Proof. intros Hv. apply split_lines_no_newline. by rewrite no_newline_app, Hv. Qed.

(** A press keeps the log and adds the line of the button. *)
Lemma text_log_press b v :
  text v ≠ "" →
  text_log (text (press b v)) =
    text_log (text v) ++ [" " +:+ name b +:+ " was pressed!"].
Proof. intros Hv. by rewrite text_press, text_log_append, pressed_line. Qed.

Lemma text_log_presses (bs : list ButtonRef) v :
  text v ≠ "" →
  length (text_log (text (run (map ev_press bs) v))) =
    length (text_log (text v)) + length bs.
Proof.
  revert v. induction bs as [|b bs IH]; intros v Hv; [simpl; lia |].
  cbn [map]. rewrite run_cons. change (fst (step (ev_press b) v)) with (press b v).
  rewrite IH by apply text_press_nonempty.
  rewrite text_log_press, length_app by done. simpl. lia.
Qed.

(** Appending after a newline never loses a line, whatever the text was. *)
Lemma text_log_grows s t : text_log s `prefix_of` text_log (s +:+ nl +:+ t).
Proof.
  destruct (decide (s = "")) as [-> | Hs].
  - apply prefix_nil.
  - rewrite text_log_append by done. by apply prefix_app_r.
Qed.
End view_facts.

(** *** The claims about the view *)

(** C1 (as amended).  The view made by [start] has an empty log and no
    button; after selecting Value1 and Value2 the log is the one line
    "Value1, Value2 selected in select option" and the three buttons are
    attached; pressing Button1 then adds the second line
    " Button1 was pressed!", which starts with the space the code writes after
    the line break; submitting "hello" adds a third line containing it. *)
Theorem start_select_press_submit :
  let v0 := fst start_cmd in
  let v1 := select ["Value1"; "Value2"] v0 in
  let v2 := press button1 v1 in
  let v3 := submit_modal "hello" v2 in
  text_log (text v0) = [] ∧ attached_widgets v0 = [] ∧
  text_log (text v1) = ["Value1, Value2 selected in select option"] ∧
  attached_widgets v1 = [button1; button2; button3] ∧
  text_log (text v2) =
    ["Value1, Value2 selected in select option"; " Button1 was pressed!"] ∧
  ∃ line, text_log (text v3) = text_log (text v2) ++ [line] ∧
          contains "hello" line = true.
Proof.
  cbv zeta. split_and!; try reflexivity.
  exists " Modal was called and value entered is hello". split; reflexivity.
Qed.

(** C1, as stated, fails: the second line is not "Button1 was pressed!". *)
Lemma second_line_is_not_bare_button_text :
  text_log (text (press button1 (select ["Value1"; "Value2"] (fst start_cmd)))) !! 1
  ≠ Some "Button1 was pressed!".
Proof. vm_compute. discriminate. Qed.

(** C2, as stated, fails: selecting again after a press shortens the log. *)
Lemma select_after_press_shortens_log :
  let v := press button1 (select ["Value1"] (fst start_cmd)) in
  ¬ (length (text_log (text v)) ≤ length (text_log (text (select ["Value1"] v)))).
Proof. vm_compute. lia. Qed.

(** C2 (as amended).  A press and a modal submission keep every line of the
    log, in place, so the log never gets shorter through them; a selection
    replaces the whole text by the selection line, whatever was there. *)
Theorem log_kept_by_press_and_submit (v : ComponentView) :
  (∀ b, text_log (text v) `prefix_of` text_log (text (press b v)) ∧
        length (text_log (text v)) ≤ length (text_log (text (press b v)))) ∧
  (∀ value, text_log (text v) `prefix_of` text_log (text (submit_modal value v)) ∧
            length (text_log (text v)) ≤ length (text_log (text (submit_modal value v)))) ∧
  (∀ values, text (select values v) =
             join ", " values +:+ " selected in select option").
Proof.
  split_and!.
  - intros b. rewrite text_press.
    pose proof (text_log_grows (text v) (" " +:+ name b +:+ " was pressed!")) as H.
    split; [done | by apply prefix_length].
  - intros value. rewrite text_submit_modal.
    pose proof (text_log_grows (text v)
                  (" Modal was called and value entered is " +:+ value)) as H.
    split; [done | by apply prefix_length].
  - intros values. apply text_select.
Qed.

(** C3.  From any view, selecting option values of the dropdown makes the log
    the single line of the values joined by ", " and followed by
    " selected in select option", and leaves the three buttons attached. *)
Theorem select_sets_log_and_buttons (v : ComponentView) (values : list string) :
  Forall (λ x, x ∈ option_values) values →
  text_log (text (select values v)) =
    [join ", " values +:+ " selected in select option"] ∧
  ∀ b, b ∈ attached_widgets (select values v).
Proof.
  intros Hvalues. split.
  - rewrite text_log_nonempty by apply text_select_nonempty.
    rewrite text_select. apply split_lines_no_newline.
    rewrite no_newline_app, no_newline_join; [done | done |].
    by apply option_values_no_newline.
  - intros b. apply elem_of_attached, select_elem.
Qed.

Lemma select_sets_log_and_buttons_witness :
  let v := submit_modal "x" (press button2 (select ["Value3"] ComponentView_init)) in
  Forall (λ x, x ∈ option_values) ["Value1"; "Value3"] ∧
  text_log (text (select ["Value1"; "Value3"] v)) = ["Value1, Value3 selected in select option"] ∧
  ∀ b, b ∈ attached_widgets (select ["Value1"; "Value3"] v).
Proof.
  cbv zeta.
  assert (Forall (λ x, x ∈ option_values) ["Value1"; "Value3"]) as H.
  { change option_values with ["Value1"; "Value2"; "Value3"].
    repeat constructor. }
  split; [exact H |].
  exact (select_sets_log_and_buttons _ _ H).
Defined.

(** C4.  In every view reached from a new one the children are the dropdown
    alone or the dropdown and the three buttons, each once; adding a button
    that is attached changes nothing, so a further selection leaves the
    children as they are; and no transition removes a child. *)
Theorem widgets_bounded_idempotent_kept :
  (∀ es, let v := run es ComponentView_init in
         (children v = [dropdown] ∨
          children v = [dropdown; button button1; button button2; button button3]) ∧
         NoDup (children v) ∧
         NoDup (attached_widgets v) ∧ length (attached_widgets v) ≤ 3) ∧
  (∀ v b, button b ∈ children v → add_button_to_view b v = v) ∧
  (∀ v b, add_button_to_view b (add_button_to_view b v) = add_button_to_view b v) ∧
  (∀ v values values',
     children (select values' (select values v)) = children (select values v)) ∧
  (∀ v e i, i ∈ children v → i ∈ children (fst (step e v))).
Proof.
  split_and!.
  - intros es v. pose proof (run_NoDup es) as Hnd. fold v in Hnd.
    split_and!; [apply run_children_shape | done | by apply attached_NoDup |
                 by apply buttons_NoDup_length, attached_NoDup].
  - intros v b Hin. by apply add_button_id.
  - intros v b. unfold add_button_to_view at 1.
    rewrite decide_True; [done | apply add_button_elem].
  - intros v values values'.
    unfold select at 1. unfold step, dropdown_selected. cbn [fst].
    rewrite (add_button_id button1) by apply select_elem.
    rewrite (add_button_id button2) by apply select_elem.
    rewrite (add_button_id button3) by apply select_elem. done.
  - intros v e i Hi. eapply elem_of_prefix; [| apply step_prefix]. done.
Qed.

Lemma widgets_bounded_idempotent_kept_witness :
  let v := run [ev_select ["Value1"]; ev_press button1; ev_select ["Value2"]]
               ComponentView_init in
  button button1 ∈ children v ∧ add_button_to_view button1 v = v ∧
  button button1 ∈ children (fst (step (ev_submit_modal "x") v)).
Proof.
  cbv zeta.
  destruct widgets_bounded_idempotent_kept as (_ & Hid & _ & _ & Hkept).
  assert (button button1 ∈
            children (run [ev_select ["Value1"]; ev_press button1; ev_select ["Value2"]]
                          ComponentView_init)) as Hin.
  { vm_compute. apply list_elem_of_further, list_elem_of_here. }
  split_and!; [exact Hin | exact (Hid _ _ Hin) | exact (Hkept _ _ _ Hin)].
Defined.

(** C5.  After a selection, N presses in a row, of any buttons, make the log
    exactly N lines longer than it was right after the selection. *)
Theorem presses_add_one_line_each (v : ComponentView) (values : list string)
    (bs : list ButtonRef) :
  length (text_log (text (run (map ev_press bs) (select values v)))) =
    length (text_log (text (select values v))) + length bs.
Proof. apply text_log_presses, text_select_nonempty. Qed.

(** C6, as stated, fails: a submitted value holding a line break adds two
    lines, not one. *)
Lemma modal_value_with_line_break_adds_two_lines :
  let v := press button1 (select ["Value1"] (fst start_cmd)) in
  ¬ ∃ line, text_log (text (submit_modal ("a" +:+ nl +:+ "b") v)) =
            text_log (text v) ++ [line].
Proof. cbv zeta. intros [line H]. vm_compute in H. discriminate. Qed.

(** C6 (as amended).  A modal submission after a press, with a value that
    holds no line break, adds exactly one line to the log; the line contains
    the value; and the children are those from before the press. *)
Theorem submit_after_press_adds_one_line (v : ComponentView) (b : ButtonRef)
    (value : string) :
  no_newline value = true →
  let v1 := press b v in
  let v2 := submit_modal value v1 in
  (∃ line, text_log (text v2) = text_log (text v1) ++ [line] ∧
           contains value line = true) ∧
  children v2 = children v ∧ attached_widgets v2 = attached_widgets v.
Proof.
  intros Hvalue v1 v2. split; [| done].
  exists (" Modal was called and value entered is " +:+ value). split.
  - subst v2. rewrite text_submit_modal, text_log_append, modal_line;
      [done | done | apply text_press_nonempty].
  - apply contains_app_r.
Qed.

Lemma submit_after_press_adds_one_line_witness :
  no_newline "hello" = true ∧
  let v := select ["Value2"] ComponentView_init in
  (∃ line, text_log (text (submit_modal "hello" (press button3 v))) =
           text_log (text (press button3 v)) ++ [line] ∧
           contains "hello" line = true) ∧
  children (submit_modal "hello" (press button3 v)) = children v ∧
  attached_widgets (submit_modal "hello" (press button3 v)) = attached_widgets v.
Proof.
  split; [reflexivity |].
  exact (submit_after_press_adds_one_line
           (select ["Value2"] ComponentView_init) button3 "hello" eq_refl).
Defined.

(** ** The [sync] command *)

Section sync_facts.
Import Core.
Variable w : list Call → Call → result nat.

Lemma length_outcomes tr guilds : length (outcomes w tr guilds) = length guilds.
Proof.
  revert tr. induction guilds as [|g guilds IH]; intros tr; simpl; [done |].
  by rewrite IH.
Qed.

(** The i-th outcome is the platform's answer to the push for the i-th
    guild, after the pushes for the guilds before it. *)
Lemma outcomes_lookup tr guilds i :
  outcomes w tr guilds !! i =
    (λ g, w (tr ++ map push (take i guilds)) (push g)) <$> guilds !! i.
Proof.
  revert tr i. induction guilds as [|g guilds IH]; intros tr i; [by destruct i |].
  destruct i as [|i]; simpl.
  - by rewrite app_nil_r.
  - rewrite IH. by rewrite <- app_assoc.
Qed.

Lemma sync_guild_returns guild ret tr n :
  w tr (push guild) = Returns n →
  sync_guild guild ret w tr = (tr ++ [push guild], Returns (ret + 1)).
Proof. intros H. unfold sync_guild, perform. by rewrite H. Qed.

Lemma sync_guild_http guild ret tr :
  w tr (push guild) = Raises HTTPException →
  sync_guild guild ret w tr = (tr ++ [push guild], Returns ret).
Proof. intros H. unfold sync_guild, perform. by rewrite H. Qed.

Lemma sync_loop_cons guild rest ret tr :
  sync_loop (guild :: rest) ret w tr =
    match sync_guild guild ret w tr with
    | (tr', Returns ret') => sync_loop rest ret' w tr'
    | (tr', Raises e) => (tr', Raises e)
    end.
Proof. done. Qed.

(** When no push raises anything but a platform error, the loop tries every
    guild in order and counts the pushes that returned. *)
Lemma sync_loop_tally guilds ret tr :
  forallb ok_or_http (outcomes w tr guilds) = true →
  sync_loop guilds ret w tr =
    (tr ++ map push guilds, Returns (ret + successes (outcomes w tr guilds))).
Proof.
  revert ret tr. induction guilds as [|g guilds IH]; intros ret tr Hok.
  - simpl. unfold Py.ret, successes. simpl. by rewrite app_nil_r, Nat.add_0_r.
  - simpl in Hok. apply andb_true_iff in Hok as [Hg Hrest].
    rewrite sync_loop_cons.
    destruct (w tr (push g)) as [n | e] eqn:Hw.
    + rewrite (sync_guild_returns _ _ _ n Hw), (IH _ _ Hrest).
      cbn [outcomes map]. rewrite Hw, <- app_assoc.
      unfold successes. rewrite filter_cons_True by done.
      simpl. do 2 f_equal. lia.
    + destruct e; try discriminate Hg.
      rewrite (sync_guild_http _ _ _ Hw), (IH _ _ Hrest).
      cbn [outcomes map]. rewrite Hw, <- app_assoc.
      unfold successes. rewrite filter_cons_False by done. done.
Qed.
End sync_facts.

(** C7, as stated, fails: the report is sent outside the [try], so when the
    pushes go through but the sending of the report raises, the exception
    comes out of the command. *)
Lemma sync_raises_when_report_fails :
  let w : list Core.Call → Core.Call → result nat :=
    λ tr a, match a with
            | Core.ctx_send _ => Raises HTTPException
            | _ => Returns 1
            end in
  forallb Core.ok_or_http (Core.outcomes w [] [1; 2]) = true ∧
  Core.sync 7 [1; 2] None w [] =
    ([Core.push 1; Core.push 2; Core.ctx_send "Synced the tree to 2/2."],
     Raises HTTPException).
Proof. split; reflexivity. Qed.

(** C7 (as amended).  For a list of N guilds, none of whose pushes raises
    anything but a platform error, [sync] tries every guild in order, failed
    or not, and then sends "Synced the tree to M/N." where M counts the
    pushes that returned; no exception of a push comes out: the command
    returns when the sending of that message returns, and raises what the
    sending raises otherwise. *)
Theorem sync_reports_tally (w : list Core.Call → Core.Call → result nat)
    (tr : list Core.Call) (ctx_guild : Core.Guild) (guilds : list Core.Guild)
    (spec : option Core.Spec) :
  let rs := Core.outcomes w tr guilds in
  let M := Core.successes rs in
  let N := length guilds in
  let report := Core.ctx_send ("Synced the tree to " +:+ pretty M +:+ "/" +:+
                               pretty N +:+ ".") in
  guilds ≠ [] →
  forallb Core.ok_or_http rs = true →
  length rs = N ∧ M ≤ N ∧
  Core.sync ctx_guild guilds spec w tr =
    (tr ++ map Core.push guilds ++ [report],
     match w (tr ++ map Core.push guilds) report with
     | Returns _ => Returns ()
     | Raises e => Raises e
     end).
Proof.
  intros rs M N report Hne Hok.
  split_and!.
  - apply length_outcomes.
  - unfold M, Core.successes, N. rewrite <- (length_outcomes w tr guilds).
    apply length_filter.
  - destruct guilds as [|g guilds]; [done |]. clear Hne.
    unfold Core.sync, mbind, eff_bind, bind.
    rewrite (sync_loop_tally w _ 0 tr Hok).
    change (0 + Core.successes (Core.outcomes w tr (g :: guilds))) with M.
    unfold perform. fold N. fold report.
    destruct (w (tr ++ map Core.push (g :: guilds)) report) eqn:Hr;
      unfold Py.ret; by rewrite <- app_assoc.
Qed.

Lemma sync_reports_tally_witness :
  let w : list Core.Call → Core.Call → result nat :=
    λ tr a, match a with
            | Core.tree_sync (Some 2) => Raises HTTPException
            | _ => Returns (length tr)
            end in
  Core.sync 7 [1; 2; 3] None w [] =
    ([Core.push 1; Core.push 2; Core.push 3; Core.ctx_send "Synced the tree to 2/3."],
     Returns ()).
Proof.
  intros w.
  refine (proj2 (proj2 (sync_reports_tally w [] 7 [1; 2; 3] None _ _)));
    [discriminate | reflexivity].
Defined.

(** ** Configuration check and start-up *)

Section config_facts.
Import Config.
Implicit Types (environ : gmap string string) (w : list Action → Action → result ()).

(** The check looks only at whether [TOKEN] is bound. *)
Lemma assert_envs_exist_cases environ :
  assert_envs_exist environ =
    match environ !! "TOKEN" with
    | None => Raises (MissingConfigurationException missing_message)
    | Some _ => Returns ()
    end.
Proof.
  unfold assert_envs_exist, envs. cbn [assert_envs_loop].
  by destruct (environ !! "TOKEN").
Qed.

(** In the loop, an entry whose converter raises [ValueError] on the bound
    value gives the error naming the type. *)
Lemma assert_envs_loop_wrong_type e0 e1 (e2 : PyType) rest environ value :
  environ !! e0 = Some value →
  call e2 value = Raises ValueError →
  assert_envs_loop ((e0, e1, e2) :: rest) environ =
    Raises (MissingConfigurationException
              (e0 +:+ "/" +:+ e1 +:+ " is not the required type of " +:+ repr e2)).
Proof.
  intros Hvalue Hcall. cbn [assert_envs_loop]. rewrite Hvalue, Hcall.
  by rewrite !string_app_assoc.
Qed.

Lemma run_bot_missing environ w tr :
  environ !! "TOKEN" = None →
  run_bot environ w tr = (tr, Raises (MissingConfigurationException missing_message)).
Proof.
  intros Hnone. unfold run_bot, mbind, eff_bind, bind, lift.
  by rewrite assert_envs_exist_cases, Hnone.
Qed.

(** With [TOKEN] bound, [run_bot] is the start-up of the bot with it. *)
Lemma run_bot_bound environ token w tr :
  environ !! "TOKEN" = Some token →
  run_bot environ w tr =
    try_finally (load_extensions extensions;; perform (start token))
                (perform close) w tr.
Proof.
  intros Hsome. unfold run_bot, mbind, eff_bind, bind, lift, environ_item.
  by rewrite assert_envs_exist_cases, Hsome.
Qed.

(** When both extensions load, the session is started with the token and
    the bot is closed afterwards. *)
Lemma run_bot_starts environ token w tr :
  environ !! "TOKEN" = Some token →
  w tr (load_extension "bot.core") = Returns () →
  w (tr ++ [load_extension "bot.core"]) (load_extension "bot.example") = Returns () →
  fst (run_bot environ w tr) =
    tr ++ [load_extension "bot.core"; load_extension "bot.example"; start token; close].
Proof.
  intros Hsome Hcore Hexample. rewrite (run_bot_bound _ _ _ _ Hsome).
  unfold try_finally, extensions, load_extensions, mbind, eff_bind, bind, perform.
  rewrite Hcore, Hexample. unfold Py.ret.
  destruct (w _ (start token)), (w _ close); cbn [fst];
    by rewrite <- !app_assoc.
Qed.
End config_facts.

(** C8.  Without [TOKEN] the check raises [MissingConfigurationException]
    with a message containing "TOKEN" and "The Bot Token", and [run_bot]
    raises it before any call on the bot; with a non-empty token the check
    passes and [run_bot] goes on to load the extensions and start the
    session with that token. *)
Theorem token_missing_or_present (environ : gmap string string) :
  (environ !! "TOKEN" = None →
   ∃ msg,
     Config.assert_envs_exist environ = Raises (MissingConfigurationException msg) ∧
     contains "TOKEN" msg = true ∧ contains "The Bot Token" msg = true ∧
     ∀ w tr, Config.run_bot environ w tr = (tr, Raises (MissingConfigurationException msg))) ∧
  (∀ token,
     environ !! "TOKEN" = Some token → token ≠ "" →
     Config.assert_envs_exist environ = Returns () ∧
     ∀ w tr,
       Config.run_bot environ w tr =
         Py.try_finally
           (Config.load_extensions Config.extensions;; Py.perform (Config.start token))
           (Py.perform Config.close) w tr ∧
       (w tr (Config.load_extension "bot.core") = Returns () →
        w (tr ++ [Config.load_extension "bot.core"])
          (Config.load_extension "bot.example") = Returns () →
        fst (Config.run_bot environ w tr) =
          tr ++ [Config.load_extension "bot.core"; Config.load_extension "bot.example";
                 Config.start token; Config.close])).
Proof.
  split.
  - intros Hnone. exists Config.missing_message. split_and!.
    + by rewrite assert_envs_exist_cases, Hnone.
    + reflexivity.
    + reflexivity.
    + intros w tr. by apply run_bot_missing.
  - intros token Hsome _. split.
    + by rewrite assert_envs_exist_cases, Hsome.
    + intros w tr. split; [by apply run_bot_bound | by apply run_bot_starts].
Qed.

Lemma token_missing_or_present_witness :
  (∃ msg,
     Config.run_bot ∅ (λ _ _, Returns ()) [] =
       ([], Raises (MissingConfigurationException msg)) ∧
     contains "TOKEN" msg = true ∧ contains "The Bot Token" msg = true) ∧
  fst (Config.run_bot {[ "TOKEN" := "abc" ]} (λ _ _, Returns ()) []) =
    [Config.load_extension "bot.core"; Config.load_extension "bot.example";
     Config.start "abc"; Config.close].
Proof.
  split.
  - assert ((∅ : gmap string string) !! "TOKEN" = None) as Hnone by reflexivity.
    destruct (proj1 (token_missing_or_present ∅) Hnone) as (msg & _ & H1 & H2 & Hrun).
    exists msg. split_and!; [apply Hrun | exact H1 | exact H2].
  - assert (({[ "TOKEN" := "abc" ]} : gmap string string) !! "TOKEN" = Some "abc")
      as Hsome by reflexivity.
    destruct (proj2 (token_missing_or_present {[ "TOKEN" := "abc" ]}) "abc" Hsome)
      as [_ Hrun]; [discriminate |].
    exact (proj2 (Hrun (λ _ _, Returns ()) []) eq_refl eq_refl).
Defined.

(** C9, as stated, fails: with [TOKEN] bound to the empty string the check
    raises nothing and [run_bot] goes on to the bot: where the first
    extension does not load it has tried to load it, and where the
    extensions load the session is started with the empty token. *)
Lemma empty_token_passes_check :
  ¬ (∃ e, Config.assert_envs_exist {[ "TOKEN" := "" ]} = Raises e) ∧
  Config.run_bot {[ "TOKEN" := "" ]}
    (λ _ a, if a is Config.load_extension _
            then Raises (OtherException "ExtensionNotFound") else Returns ()) [] =
    ([Config.load_extension "bot.core"; Config.close],
     Raises (OtherException "ExtensionNotFound")) ∧
  Config.start "" ∈ fst (Config.run_bot {[ "TOKEN" := "" ]} (λ _ _, Returns ()) []).
Proof.
  split_and!.
  - intros [e H]. vm_compute in H. discriminate.
  - reflexivity.
  - vm_compute. do 2 apply list_elem_of_further. apply list_elem_of_here.
Qed.

(** C9 (as amended).  The token is checked for presence only: with [TOKEN]
    bound to the empty string the check passes and [run_bot] goes on to the
    start-up with the empty token: it is the loading of the extensions
    followed by the start of the session with that token, its first call is
    always the loading of "bot.core", and when both extensions load the
    session is started with the empty token. *)
Theorem empty_token_is_accepted (environ : gmap string string) :
  environ !! "TOKEN" = Some "" →
  Config.assert_envs_exist environ = Returns () ∧
  ∀ w tr,
    Config.run_bot environ w tr =
      Py.try_finally
        (Config.load_extensions Config.extensions;; Py.perform (Config.start ""))
        (Py.perform Config.close) w tr ∧
    (∃ rest, fst (Config.run_bot environ w tr) =
               tr ++ Config.load_extension "bot.core" :: rest) ∧
    (w tr (Config.load_extension "bot.core") = Returns () →
     w (tr ++ [Config.load_extension "bot.core"])
       (Config.load_extension "bot.example") = Returns () →
     fst (Config.run_bot environ w tr) =
       tr ++ [Config.load_extension "bot.core"; Config.load_extension "bot.example";
              Config.start ""; Config.close]).
Proof.
  intros Hsome. split.
  - by rewrite assert_envs_exist_cases, Hsome.
  - intros w tr. split_and!.
    + by apply run_bot_bound.
    + rewrite (run_bot_bound _ _ _ _ Hsome).
      unfold try_finally, Config.extensions, Config.load_extensions,
        mbind, eff_bind, bind, perform, Py.ret.
      repeat match goal with
             | |- context [match w ?h ?c with _ => _ end] => destruct (w h c)
             end;
        cbn [fst]; rewrite <- ?app_assoc; cbn [app]; by eexists.
    + by apply run_bot_starts.
Qed.

Lemma empty_token_is_accepted_witness :
  Config.assert_envs_exist {[ "TOKEN" := "" ]} = Returns () ∧
  (∃ rest, fst (Config.run_bot {[ "TOKEN" := "" ]}
                  (λ _ _, Raises HTTPException) [Config.close]) =
             [Config.close] ++ Config.load_extension "bot.core" :: rest) ∧
  fst (Config.run_bot {[ "TOKEN" := "" ]} (λ _ _, Returns ()) [Config.close]) =
    [Config.close; Config.load_extension "bot.core"; Config.load_extension "bot.example";
     Config.start ""; Config.close].
Proof.
  assert (({[ "TOKEN" := "" ]} : gmap string string) !! "TOKEN" = Some "")
    as Hsome by reflexivity.
  destruct (empty_token_is_accepted {[ "TOKEN" := "" ]} Hsome) as [Hcheck Hrun].
  split_and!; [exact Hcheck | |].
  - exact (proj1 (proj2 (Hrun (λ _ _, Raises HTTPException) [Config.close]))).
  - exact (proj2 (proj2 (Hrun (λ _ _, Returns ()) [Config.close])) eq_refl eq_refl).
Defined.

(** C10.  Applying [str] to a string never raises, so the check raises only
    when [TOKEN] is not set, and then with the message for a missing
    variable, never with the one naming the type. *)
Theorem wrong_type_branch_unreachable :
  (∀ value, Config.call Config.str value = Returns ()) ∧
  (∀ environ e,
     Config.assert_envs_exist environ = Raises e →
     environ !! "TOKEN" = None ∧
     e = MissingConfigurationException "TOKEN/The Bot Token needs to be- defined") ∧
  (∀ environ msg,
     Config.assert_envs_exist environ = Raises (MissingConfigurationException msg) →
     contains "is not the required type" msg = false).
Proof.
  split_and!.
  - done.
  - intros environ e. rewrite assert_envs_exist_cases.
    destruct (environ !! "TOKEN"); [discriminate |]. intros [= <-]. done.
  - intros environ msg. rewrite assert_envs_exist_cases.
    destruct (environ !! "TOKEN"); [discriminate |]. intros [= <-]. reflexivity.
Qed.

Lemma wrong_type_branch_unreachable_witness :
  Config.assert_envs_exist ∅ =
    Raises (MissingConfigurationException "TOKEN/The Bot Token needs to be- defined") ∧
  contains "is not the required type" "TOKEN/The Bot Token needs to be- defined" = false.
Proof.
  destruct wrong_type_branch_unreachable as (_ & Honly & Hnever).
  split.
  - destruct (Config.assert_envs_exist ∅) as [[] | e] eqn:H; [discriminate H |].
    by destruct (Honly ∅ e H) as [_ ->].
  - exact (Hnever ∅ _ eq_refl).
Defined.

(** ** More on the component view *)

Section view_runs.
Import Message.
Implicit Types (v : ComponentView) (e : Event) (es : list Event).

Lemma view_eq v v' : text v = text v' → children v = children v' → v = v'.
Proof. destruct v, v'; simpl; by intros -> ->. Qed.

Lemma run_app es es' v : run (es ++ es') v = run es' (run es v).
Proof. unfold run. apply fold_left_app. Qed.

Lemma children_select_run es values :
  children (select values (run es ComponentView_init)) =
    [dropdown; button button1; button button2; button button3].
Proof.
  pose proof (run_children_shape (es ++ [ev_select values])) as Hshape.
  rewrite run_snoc in Hshape.
  change (fst (step (ev_select values) ?v)) with (select values v) in Hshape.
  destruct Hshape as [Hone | Hall]; [| done].
  pose proof (select_elem values (run es ComponentView_init) button1) as Hin.
  rewrite Hone in Hin. apply list_elem_of_singleton in Hin. discriminate.
Qed.

Lemma select_run es values :
  select values (run es ComponentView_init) =
    {| text := join ", " values +:+ " selected in select option";
       children := [dropdown; button button1; button button2; button button3] |}.
Proof.
  apply view_eq; simpl; [apply text_select | apply children_select_run].
Qed.

(** An event other than a selection appends to the text, after a line
    break. *)
Lemma step_appends e v :
  is_select e = false →
  ∃ t, text (fst (step e v)) = text v +:+ nl +:+ t ∧
       (adds_one_line e = true → split_lines t = [t]).
Proof.
  destruct e as [values | b | value]; [done | |]; intros _.
  - exists (" " +:+ name b +:+ " was pressed!"). split; [done |].
    intros _. apply pressed_line.
  - exists (" Modal was called and value entered is " +:+ value). split; [done |].
    simpl. apply modal_line.
Qed.

Lemma step_text_nonempty e v : text (fst (step e v)) ≠ "".
Proof.
  destruct e as [values | b | value].
  - apply text_select_nonempty.
  - apply text_press_nonempty.
  - change (text (submit_modal value v) ≠ ""). rewrite text_submit_modal.
    intros [_ [? _]%string_app_eq_nil]%string_app_eq_nil. done.
Qed.

Lemma run_appends es v :
  forallb (λ e, negb (is_select e)) es = true →
  ∃ rest, text (run es v) = text v +:+ rest ∧ (es ≠ [] → rest ≠ "").
Proof.
  revert v. induction es as [|e es IH]; intros v Hes.
  - exists "". by rewrite string_app_nil_r.
  - simpl in Hes. apply andb_true_iff in Hes as [He Hes].
    apply negb_true_iff in He.
    destruct (step_appends e v He) as (t & Ht & _).
    destruct (IH (fst (step e v)) Hes) as (rest & Hrest & _).
    rewrite run_cons, Hrest, Ht. exists (nl +:+ t +:+ rest). split.
    + by rewrite !string_app_assoc.
    + intros _ [? _]%string_app_eq_nil. done.
Qed.






End view_runs.

(** X1.  A selection forgets the history: whatever events a view has seen,
    after a selection it holds the selection line alone and the dropdown
    followed by the three buttons in their order. *)
Theorem select_forgets_history (es : list Event) (values : list string) :
  select values (run es ComponentView_init) =
    {| text := join ", " values +:+ " selected in select option";
       children := [dropdown; button button1; button button2; button button3] |}.
Proof. apply select_run. Qed.

(** X2.  The buttons are attached exactly when a selection has taken place:
    a view that has seen no selection shows none, any other shows the three. *)
Theorem buttons_attached_iff_selected (es : list Event) :
  attached_widgets (run es ComponentView_init) =
    if existsb Message.is_select es then [button1; button2; button3] else [].
Proof.
  induction es as [|e es IH] using rev_ind; [done |].
  rewrite run_snoc, existsb_app. destruct e as [values | b | value].
  - change (fst (step (ev_select values) ?v)) with (select values v).
    rewrite select_run. simpl. by rewrite orb_true_r.
  - simpl. rewrite orb_false_r. exact IH.
  - simpl. rewrite orb_false_r. exact IH.
Qed.

(** X3.  Between selections the text is only appended to: after any presses
    and submissions the old text is the beginning of the new one and every
    line of the old log is still in its place. *)
Theorem log_kept_between_selections (es : list Event) (v : ComponentView) :
  forallb (λ e, negb (Message.is_select e)) es = true →
  (∃ rest, text (run es v) = text v +:+ rest) ∧
  text_log (text v) `prefix_of` text_log (text (run es v)).
Proof.
  intros Hes. split.
  - destruct (run_appends es v Hes) as (rest & Hrest & _). by exists rest.
  - revert v. induction es as [|e es IH]; intros v; [done |].
    simpl in Hes. apply andb_true_iff in Hes as [He Hes].
    apply negb_true_iff in He.
    destruct (step_appends e v He) as (t & Ht & _).
    rewrite run_cons. etrans; [| apply (IH Hes)].
    rewrite Ht. apply text_log_grows.
Qed.

Lemma log_kept_between_selections_witness :
  let v := select ["Value2"] ComponentView_init in
  let es := [ev_press button3; ev_submit_modal "x"; ev_press button1] in
  text_log (text v) `prefix_of` text_log (text (run es v)).
Proof.
  exact (proj2 (log_kept_between_selections
                  [ev_press button3; ev_submit_modal "x"; ev_press button1]
                  (select ["Value2"] ComponentView_init) eq_refl)).
Defined.

(** X4.  Presses and submissions of values without a line break, in any
    order, add one line each: from a view whose text is not empty, the log
    after them is longer by their number. *)
Theorem each_event_adds_one_line (es : list Event) (v : ComponentView) :
  text v ≠ "" →
  forallb Message.adds_one_line es = true →
  length (text_log (text (run es v))) = length (text_log (text v)) + length es.
Proof.
  revert v. induction es as [|e es IH]; intros v Hv Hes; [simpl; lia |].
  simpl in Hes. apply andb_true_iff in Hes as [He Hes].
  assert (Message.is_select e = false) as Hsel by by destruct e.
  destruct (step_appends e v Hsel) as (t & Ht & Hline).
  rewrite run_cons, (IH _ (step_text_nonempty e v) Hes).
  rewrite Ht, text_log_append, (Hline He), length_app by done. simpl. lia.
Qed.

Lemma each_event_adds_one_line_witness :
  let v := select ["Value1"; "Value3"] ComponentView_init in
  let es := [ev_press button2; ev_submit_modal "seven"; ev_press button2;
             ev_press button1; ev_submit_modal ""] in
  length (text_log (text (run es v))) = 1 + 5.
Proof.
  refine (each_event_adds_one_line
            [ev_press button2; ev_submit_modal "seven"; ev_press button2;
             ev_press button1; ev_submit_modal ""]
            (select ["Value1"; "Value3"] ComponentView_init) _ eq_refl).
  discriminate.
Defined.



(** ** More on the [sync] command *)

Section sync_more.
Import Core.
Variable w : list Call → Call → result nat.

Lemma sync_loop_app pre post ret tr :
  sync_loop (pre ++ post) ret w tr =
    match sync_loop pre ret w tr with
    | (tr', Returns ret') => sync_loop post ret' w tr'
    | (tr', Raises e) => (tr', Raises e)
    end.
Proof.
  revert ret tr. induction pre as [|g pre IH]; intros ret tr; [done |].
  rewrite <- app_comm_cons, !sync_loop_cons.
  destruct (sync_guild g ret w tr) as [tr' [ret' | e]]; [apply IH | done].
Qed.

Lemma sync_guild_calls guild ret tr :
  fst (sync_guild guild ret w tr) = tr ++ [push guild].
Proof.
  unfold sync_guild, perform. by destruct (w tr (push guild)) as [n | []].
Qed.

(** The loop only pushes to the guilds of the list, in their order, and when
    it returns it has tried them all. *)
Lemma sync_loop_calls guilds ret tr :
  ∃ k, k ≤ length guilds ∧
       fst (sync_loop guilds ret w tr) = tr ++ map push (take k guilds) ∧
       (returned (snd (sync_loop guilds ret w tr)) = true → k = length guilds).
Proof.
  revert ret tr. induction guilds as [|g guilds IH]; intros ret tr.
  - exists 0. simpl. by rewrite app_nil_r.
  - rewrite sync_loop_cons. pose proof (sync_guild_calls g ret tr) as Hcalls.
    destruct (sync_guild g ret w tr) as [tr' [ret' | e]]; simpl in Hcalls; subst tr'.
    + destruct (IH ret' (tr ++ [push g])) as (k & Hk & Htr & Hall).
      exists (S k). split_and!; [simpl; lia | | intros H; simpl; by rewrite Hall].
      rewrite Htr. simpl. by rewrite <- app_assoc.
    + exists 1. split_and!; [simpl; lia | done | done].
Qed.
End sync_more.

(** X6.  With an explicit list of guilds, [sync] does nothing but push to
    guilds of the list, in order, and then report: it never pushes globally,
    copies or clears commands, and its [spec] argument and the guild it is
    called in have no effect. *)
Theorem sync_with_guilds_only_pushes (w : list Core.Call → Core.Call → result nat)
    (tr : list Core.Call) (ctx_guild : Core.Guild) (guilds : list Core.Guild)
    (spec : option Core.Spec) :
  guilds ≠ [] →
  (∀ ctx_guild' spec',
     Core.sync ctx_guild' guilds spec' w tr = Core.sync ctx_guild guilds spec w tr) ∧
  ∃ k, k ≤ length guilds ∧
       (fst (Core.sync ctx_guild guilds spec w tr) = tr ++ map Core.push (take k guilds) ∨
        ∃ content, fst (Core.sync ctx_guild guilds spec w tr) =
                     tr ++ map Core.push guilds ++ [Core.ctx_send content]).
Proof.
  intros Hne. destruct guilds as [|g guilds]; [done |]. split; [done |].
  destruct (sync_loop_calls w (g :: guilds) 0 tr) as (k & Hk & Htr & Hall).
  exists k. split; [done |].
  unfold Core.sync, mbind, eff_bind, bind.
  destruct (Core.sync_loop (g :: guilds) 0 w tr) as [tr' [ret | e]];
    simpl in Htr; subst tr'.
  - right. rewrite (Hall eq_refl), firstn_all. eexists. unfold perform.
    destruct (w _ _); simpl; by rewrite <- app_assoc.
  - by left.
Qed.

Lemma sync_with_guilds_only_pushes_witness :
  let w : list Core.Call → Core.Call → result nat :=
    λ tr a, match a with
            | Core.tree_sync (Some 5) => Raises (OtherException "TypeError")
            | _ => Returns 1
            end in
  Core.sync 9 [4; 5; 6] (Some Core.spec_caret) w [] = Core.sync 1 [4; 5; 6] None w [].
Proof.
  intros w.
  symmetry.
  refine (proj1 (sync_with_guilds_only_pushes w [] 9 [4; 5; 6] (Some Core.spec_caret) _)
            1 None).
  discriminate.
Defined.

(** X7.  An exception of a push that is not a platform error stops the
    command at once: the guilds after it are not tried, no report is sent
    and the exception comes out of the command. *)
Theorem sync_stops_at_other_exception (w : list Core.Call → Core.Call → result nat)
    (tr : list Core.Call) (ctx_guild : Core.Guild) (pre post : list Core.Guild)
    (guild : Core.Guild) (spec : option Core.Spec) (e : Exc) :
  forallb Core.ok_or_http (Core.outcomes w tr pre) = true →
  w (tr ++ map Core.push pre) (Core.push guild) = Raises e →
  e ≠ HTTPException →
  Core.sync ctx_guild (pre ++ guild :: post) spec w tr =
    (tr ++ map Core.push pre ++ [Core.push guild], Raises e).
Proof.
  intros Hpre Hguild He.
  assert (Core.sync_loop (pre ++ guild :: post) 0 w tr =
            (tr ++ map Core.push pre ++ [Core.push guild], Raises e)) as Hloop.
  { rewrite sync_loop_app, (sync_loop_tally w pre 0 tr Hpre), sync_loop_cons.
    unfold Core.sync_guild, perform. rewrite Hguild, <- app_assoc.
    by destruct e. }
  clear Hpre Hguild. destruct pre as [|p pre]; cbn [app] in Hloop |- *;
    unfold Core.sync, mbind, eff_bind, bind; by rewrite Hloop.
Qed.

Lemma sync_stops_at_other_exception_witness :
  let w : list Core.Call → Core.Call → result nat :=
    λ tr a, match a with
            | Core.tree_sync (Some 4) => Raises HTTPException
            | Core.tree_sync (Some 5) => Raises (OtherException "MissingApplicationID")
            | _ => Returns 1
            end in
  Core.sync 9 [3; 4; 5; 6] None w [] =
    ([Core.push 3; Core.push 4; Core.push 5],
     Raises (OtherException "MissingApplicationID")).
Proof.
  intros w.
  refine (sync_stops_at_other_exception w [] 9 [3; 4] [6] 5 None _ _ _ _);
    [reflexivity | reflexivity | discriminate].
Defined.

(** X8.  Without guilds, [sync] makes one push, to the guild it is called
    in, or the global one when no [spec] is given; "*" copies the global
    commands first and "^" clears the guild's first.  The message then gives
    the number of commands the push returned, but 0 for "^", and ends in
    "globally" only when no [spec] was given. *)
Theorem sync_without_guilds (w : list Core.Call → Core.Call → result nat)
    (tr : list Core.Call) (ctx_guild : Core.Guild) (spec : option Core.Spec) (n : nat) :
  let target := if spec is None then None else Some ctx_guild in
  let prep := match spec with
              | Some Core.spec_star => [Core.copy_global_to ctx_guild]
              | Some Core.spec_caret => [Core.clear_commands ctx_guild]
              | _ => []
              end in
  let synced := if spec is Some Core.spec_caret then 0 else n in
  let report := Core.ctx_send
                  ("Synced " +:+ pretty synced +:+ " commands " +:+
                   (if spec is None then "globally" else "to the current guild.")) in
  Forall (λ a, returned (w tr a) = true) prep →
  w (tr ++ prep) (Core.tree_sync target) = Returns n →
  fst (Core.sync ctx_guild [] spec w tr) = tr ++ prep ++ [Core.tree_sync target; report] ∧
  (returned (w (tr ++ prep ++ [Core.tree_sync target]) report) = true →
   snd (Core.sync ctx_guild [] spec w tr) = Returns ()).
Proof.
  intros target prep synced report Hprep Hpush.
  destruct spec as [[| |]|]; subst target prep synced report;
    unfold Core.sync, mbind, eff_bind, bind, perform, Py.ret;
    try (apply Forall_cons in Hprep as [Hprep _];
         destruct (w tr _) as [m|] eqn:Hm; [| discriminate Hprep]);
    rewrite ?app_nil_r in Hpush; rewrite Hpush; rewrite ?app_nil_r;
    rewrite <- ?app_assoc; simpl;
    (split; [by destruct (w _ (Core.ctx_send _)); simpl; rewrite <- ?app_assoc
            | by destruct (w _ (Core.ctx_send _))]).
Qed.

Lemma sync_without_guilds_witness :
  let w : list Core.Call → Core.Call → result nat := λ tr a, Returns 3 in
  fst (Core.sync 9 [] (Some Core.spec_caret) w []) =
    [Core.clear_commands 9; Core.tree_sync (Some 9);
     Core.ctx_send "Synced 0 commands to the current guild."] ∧
  fst (Core.sync 9 [] None w []) =
    [Core.tree_sync None; Core.ctx_send "Synced 3 commands globally"].
Proof.
  intros w. split.
  - refine (proj1 (sync_without_guilds w [] 9 (Some Core.spec_caret) 3 _ _));
      [by repeat constructor | reflexivity].
  - refine (proj1 (sync_without_guilds w [] 9 None 3 _ _));
      [by constructor | reflexivity].
Defined.

(** X9.  Without guilds nothing is caught: when a call that [sync] made was
    answered by an exception, platform error or not, that call is the last
    one made, no message follows it and the command raises that exception. *)
Theorem sync_without_guilds_propagates (w : list Core.Call → Core.Call → result nat)
    (tr : list Core.Call) (ctx_guild : Core.Guild) (spec : option Core.Spec)
    (calls rest : list Core.Call) (a : Core.Call) (e : Exc) :
  fst (Core.sync ctx_guild [] spec w tr) = tr ++ calls ++ a :: rest →
  w (tr ++ calls) a = Raises e →
  rest = [] ∧ snd (Core.sync ctx_guild [] spec w tr) = Raises e.
Proof.
  unfold Core.sync, mbind, eff_bind, bind, perform, Py.ret.
  destruct spec as [[| |]|];
    repeat match goal with
           | |- context [match w ?h ?c with _ => _ end] =>
               let H := fresh "Hw" in destruct (w h c) eqn:H
           end;
    cbn [fst snd]; rewrite <- ?app_assoc; intros Htr%app_inv_head Ha;
    repeat (destruct calls as [|? calls]; simplify_eq/=);
    rewrite ?app_nil_r, <- ?app_assoc in *; cbn [app] in *;
    split; congruence.
Qed.

Lemma sync_without_guilds_propagates_witness :
  let w : list Core.Call → Core.Call → result nat :=
    λ tr a, match a with
            | Core.tree_sync _ => Raises HTTPException
            | _ => Returns 0
            end in
  snd (Core.sync 9 [] (Some Core.spec_star) w []) = Raises HTTPException.
Proof.
  intros w.
  refine (proj2 (sync_without_guilds_propagates w [] 9 (Some Core.spec_star)
                   [Core.copy_global_to 9] [] (Core.tree_sync (Some 9)) HTTPException
                   _ _));
    reflexivity.
Defined.

(** ** More on the configuration check and the start-up *)

Section config_more.
Import Config.
Implicit Types (environ : gmap string string) (es : list (string * string * PyType)).

Lemma assert_envs_loop_cons_ok e es environ :
  entry_ok environ e →
  assert_envs_loop (e :: es) environ = assert_envs_loop es environ.
Proof.
  destruct e as [[e0 e1] e2]. intros (value & Hvalue & Hcall). simpl in *.
  by rewrite Hvalue, Hcall.
Qed.

Lemma assert_envs_loop_cons_returns e es environ :
  assert_envs_loop (e :: es) environ = Returns () →
  entry_ok environ e ∧ assert_envs_loop es environ = Returns ().
Proof.
  destruct e as [[e0 e1] e2]. unfold entry_ok. simpl.
  destruct (environ !! e0) as [value |]; [| done].
  destruct (call e2 value) as [[] | []] eqn:Hcall; try done.
  intros Hrest. split; [by exists value | done].
Qed.

Lemma assert_envs_loop_passes_iff_aux es environ :
  assert_envs_loop es environ = Returns () ↔ Forall (entry_ok environ) es.
Proof.
  induction es as [|e es IH]; [by split; [constructor |] |]. split.
  - intros [He Hes]%assert_envs_loop_cons_returns.
    constructor; [done | by apply IH].
  - intros [He Hes]%Forall_cons. rewrite assert_envs_loop_cons_ok by done.
    by apply IH.
Qed.

Lemma load_extensions_two (w : list Action → Action → result ()) tr x y :
  load_extensions [x; y] w tr =
    match w tr (load_extension x) with
    | Returns _ =>
        (tr ++ [load_extension x; load_extension y],
         w (tr ++ [load_extension x]) (load_extension y))
    | Raises e => (tr ++ [load_extension x], Raises e)
    end.
Proof.
  unfold load_extensions, mbind, eff_bind, bind, perform, Py.ret.
  destruct (w tr (load_extension x)); [| done].
  rewrite <- app_assoc. by destruct (w _ (load_extension y)) as [[] |].
Qed.
End config_more.

(** X10.  The check of a list of entries is the check of its first part
    followed, when that passes, by the check of the rest: the error is that
    of the first entry that fails. *)
Theorem assert_envs_loop_app (pre post : list (string * string * Config.PyType))
    (environ : gmap string string) :
  Config.assert_envs_loop (pre ++ post) environ =
    match Config.assert_envs_loop pre environ with
    | Returns _ => Config.assert_envs_loop post environ
    | Raises e => Raises e
    end.
Proof.
  induction pre as [|[[e0 e1] e2] pre IH]; [done |].
  rewrite <- app_comm_cons. cbn [Config.assert_envs_loop].
  destruct (environ !! e0) as [value |]; [| done].
  by destruct (Config.call e2 value) as [[] | []].
Qed.

(** X11.  The check passes exactly when every entry has its variable set to
    a value its converter accepts. *)
Theorem assert_envs_loop_passes_iff (es : list (string * string * Config.PyType))
    (environ : gmap string string) :
  Config.assert_envs_loop es environ = Returns () ↔
  Forall (Config.entry_ok environ) es.
Proof. apply assert_envs_loop_passes_iff_aux. Qed.

Lemma assert_envs_loop_passes_iff_witness :
  Config.assert_envs_loop
    [("TOKEN", "The Bot Token", Config.str); ("OWNER", "The Owner", Config.str)]
    {[ "OWNER" := "me"; "TOKEN" := "abc" ]} = Returns () ∧
  Config.entry_ok {[ "TOKEN" := "abc" ]} ("TOKEN", "The Bot Token", Config.str).
Proof.
  split; [reflexivity |].
  assert (Config.assert_envs_loop [("TOKEN", "The Bot Token", Config.str)]
            {[ "TOKEN" := "abc" ]} = Returns ()) as H by reflexivity.
  apply assert_envs_loop_passes_iff in H.
  exact (Forall_inv H).
Defined.

(** X12.  For the entry the check is at: a variable that is not set gives
    a [MissingConfigurationException] whose message contains the name and
    the label of the entry; a converter raising [ValueError] gives one naming
    the type; any other exception of the converter comes out as it is. *)
Theorem assert_envs_loop_entry_fails (e0 e1 : string) (e2 : Config.PyType)
    (rest : list (string * string * Config.PyType)) (environ : gmap string string) :
  (environ !! e0 = None →
   ∃ msg, Config.assert_envs_loop ((e0, e1, e2) :: rest) environ =
            Raises (MissingConfigurationException msg) ∧
          contains e0 msg = true ∧ contains e1 msg = true) ∧
  (∀ value e,
     environ !! e0 = Some value → Config.call e2 value = Raises e →
     Config.assert_envs_loop ((e0, e1, e2) :: rest) environ =
       Raises (match e with
               | ValueError =>
                   MissingConfigurationException
                     (e0 +:+ "/" +:+ e1 +:+ " is not the required type of " +:+
                      Config.repr e2)
               | _ => e
               end)).
Proof.
  split.
  - intros Hnone. eexists. cbn [Config.assert_envs_loop]. rewrite Hnone.
    split_and!; [done | |].
    + rewrite string_app_assoc. apply (contains_middle e0 "").
    + rewrite !string_app_assoc.
      rewrite <- (string_app_assoc e0 "/" (e1 +:+ _)). apply contains_middle.
  - intros value e Hvalue Hcall. cbn [Config.assert_envs_loop].
    rewrite Hvalue, Hcall. destruct e; try done.
    by rewrite !string_app_assoc.
Qed.

Lemma assert_envs_loop_entry_fails_witness :
  let seven := {| Config.repr := "<class 'Seven'>";
                  Config.call := λ value, if decide (value = "7") then Returns ()
                                          else Raises ValueError |} in
  Config.assert_envs_loop [("PORT", "The Port", seven)] {[ "PORT" := "seven" ]} =
    Raises (MissingConfigurationException
              "PORT/The Port is not the required type of <class 'Seven'>") ∧
  ∃ msg, Config.assert_envs_loop [("PORT", "The Port", seven)] ∅ =
           Raises (MissingConfigurationException msg) ∧
         contains "PORT" msg = true ∧ contains "The Port" msg = true.
Proof.
  intros seven.
  destruct (assert_envs_loop_entry_fails "PORT" "The Port" seven [] {[ "PORT" := "seven" ]})
    as [_ Htype].
  destruct (assert_envs_loop_entry_fails "PORT" "The Port" seven [] ∅) as [Hmissing _].
  split.
  - exact (Htype "seven" ValueError eq_refl eq_refl).
  - exact (Hmissing eq_refl).
Defined.

(** X13.  Setting more variables never makes the check fail: when it passes
    in an environment it passes in every environment that extends it. *)
Theorem assert_envs_loop_mono (es : list (string * string * Config.PyType))
    (environ environ' : gmap string string) :
  environ ⊆ environ' →
  Config.assert_envs_loop es environ = Returns () →
  Config.assert_envs_loop es environ' = Returns ().
Proof.
  intros Hsub. rewrite !assert_envs_loop_passes_iff_aux.
  intros H. eapply Forall_impl; [exact H |]. simpl. intros e (value & Hvalue & Hcall).
  exists value. split; [| done]. by eapply lookup_weaken.
Qed.

Lemma assert_envs_loop_mono_witness :
  Config.assert_envs_loop Config.envs {[ "OWNER" := "me"; "TOKEN" := "abc" ]} = Returns ().
Proof.
  refine (assert_envs_loop_mono Config.envs {[ "TOKEN" := "abc" ]}
            {[ "OWNER" := "me"; "TOKEN" := "abc" ]} _ eq_refl).
  apply insert_subseteq. reflexivity.
Defined.

(** X14.  Once the check has passed, [run_bot] loads "bot.core", then
    "bot.example", then starts the session with the token of the
    environment, stopping at the first of these that raises; whichever of
    them was the last, it then closes the bot, once, as its last call; it
    raises what the closing raises, and otherwise ends as the last of the
    calls before it did. *)
Theorem run_bot_closes_last (environ : gmap string string) (token : string)
    (w : list Config.Action → Config.Action → result ()) (tr : list Config.Action) :
  environ !! "TOKEN" = Some token →
  let core := Config.load_extension "bot.core" in
  let example := Config.load_extension "bot.example" in
  let calls :=
    match w tr core with
    | Raises _ => [core]
    | Returns _ =>
        match w (tr ++ [core]) example with
        | Raises _ => [core; example]
        | Returns _ => [core; example; Config.start token]
        end
    end in
  let body :=
    match w tr core with
    | Raises e => Raises e
    | Returns _ =>
        match w (tr ++ [core]) example with
        | Raises e => Raises e
        | Returns _ => w (tr ++ [core; example]) (Config.start token)
        end
    end in
  Config.run_bot environ w tr =
    (tr ++ calls ++ [Config.close],
     match w (tr ++ calls) Config.close with
     | Returns _ => body
     | Raises e => Raises e
     end) ∧
  (Config.close ∉ calls).
Proof.
  intros Hsome core example calls body. subst core example calls body.
  rewrite (run_bot_bound _ _ _ _ Hsome).
  unfold try_finally, mbind, eff_bind, bind, Config.extensions.
  rewrite load_extensions_two.
  assert (∀ l : list Config.Action,
            l `prefix_of` [Config.load_extension "bot.core";
                           Config.load_extension "bot.example"; Config.start token] →
            Config.close ∉ l) as Hnot.
  { intros l Hpre Hin. eapply elem_of_prefix in Hin; [| exact Hpre].
    repeat (apply elem_of_cons in Hin as [? | Hin]; [discriminate |]).
    by apply elem_of_nil in Hin. }
  destruct (w tr (Config.load_extension "bot.core")) as [[] | e1].
  - destruct (w (tr ++ [Config.load_extension "bot.core"])
                (Config.load_extension "bot.example")) as [[] | e2].
    + unfold perform. rewrite <- !app_assoc. cbn [app].
      split; [by destruct (w _ Config.close) | by apply Hnot].
    + unfold perform. rewrite <- !app_assoc. cbn [app].
      split; [by destruct (w _ Config.close) | by apply Hnot; eexists].
  - unfold perform. rewrite <- !app_assoc. cbn [app].
    split; [by destruct (w _ Config.close) | by apply Hnot; eexists].
Qed.

Lemma run_bot_closes_last_witness :
  let w : list Config.Action → Config.Action → result () :=
    λ tr a, match a with
            | Config.start _ => Raises (OtherException "LoginFailure")
            | _ => Returns ()
            end in
  Config.run_bot {[ "TOKEN" := "abc" ]} w [] =
    ([Config.load_extension "bot.core"; Config.load_extension "bot.example";
      Config.start "abc"; Config.close],
     Raises (OtherException "LoginFailure")).
Proof.
  intros w.
  assert (({[ "TOKEN" := "abc" ]} : gmap string string) !! "TOKEN" = Some "abc")
    as Hsome by reflexivity.
  exact (proj1 (run_bot_closes_last {[ "TOKEN" := "abc" ]} "abc" w [] Hsome)).
Defined.

(** X15.  When an extension does not load, the session is never started:
    [run_bot] goes straight to closing the bot and raises the exception of
    the loading, or that of the closing when the closing raises too. *)
Theorem run_bot_extension_fails (environ : gmap string string) (token : string)
    (w : list Config.Action → Config.Action → result ()) (tr : list Config.Action)
    (e : Exc) :
  environ !! "TOKEN" = Some token →
  let core := Config.load_extension "bot.core" in
  let example := Config.load_extension "bot.example" in
  let after_close (calls : list Config.Action) :=
    match w (tr ++ calls) Config.close with
    | Returns _ => Raises e
    | Raises e' => Raises e'
    end in
  (w tr core = Raises e →
   Config.run_bot environ w tr = (tr ++ [core; Config.close], after_close [core])) ∧
  (w tr core = Returns () → w (tr ++ [core]) example = Raises e →
   Config.run_bot environ w tr =
     (tr ++ [core; example; Config.close], after_close [core; example])).
Proof.
  intros Hsome core example after_close. subst core example after_close.
  rewrite (run_bot_bound _ _ _ _ Hsome).
  unfold try_finally, mbind, eff_bind, bind, Config.extensions.
  rewrite load_extensions_two. split.
  - intros ->. unfold perform. rewrite <- !app_assoc. cbn [app].
    by destruct (w _ Config.close).
  - intros -> ->. unfold perform. rewrite <- !app_assoc. cbn [app].
    by destruct (w _ Config.close).
Qed.

Lemma run_bot_extension_fails_witness :
  let w : list Config.Action → Config.Action → result () :=
    λ tr a, match a with
            | Config.load_extension "bot.example" =>
                Raises (OtherException "ExtensionFailed")
            | _ => Returns ()
            end in
  Config.run_bot {[ "TOKEN" := "abc" ]} w [] =
    ([Config.load_extension "bot.core"; Config.load_extension "bot.example"; Config.close],
     Raises (OtherException "ExtensionFailed")).
Proof.
  intros w.
  assert (({[ "TOKEN" := "abc" ]} : gmap string string) !! "TOKEN" = Some "abc")
    as Hsome by reflexivity.
  exact (proj2 (run_bot_extension_fails {[ "TOKEN" := "abc" ]} "abc" w []
                  (OtherException "ExtensionFailed") Hsome) eq_refl eq_refl).
Defined.

(** X16.  [run_bot] of [main.py]: without [TOKEN] it raises the error of the
    check and makes no call; with it, when entering [async with bot] raises
    nothing else is called, not even the exit; otherwise it adds the cog
    "CoreCog", then "ExampleCog", then starts the session with the token of
    the environment, stopping at the first of these that raises, and the exit
    is its last call; it raises what the exit raises, and otherwise ends as
    the last of the calls before it did. *)
Theorem main_run_bot_paths (environ : gmap string string)
    (w : list Main.Action → Main.Action → result ()) (tr : list Main.Action) :
  (environ !! "TOKEN" = None →
   Main.run_bot environ w tr =
     (tr, Raises (MissingConfigurationException Config.missing_message))) ∧
  (∀ token,
     environ !! "TOKEN" = Some token →
     let core := Main.add_cog "CoreCog" in
     let example := Main.add_cog "ExampleCog" in
     let entered := tr ++ [Main.aenter] in
     let calls :=
       match w entered core with
       | Raises _ => [core]
       | Returns _ =>
           match w (entered ++ [core]) example with
           | Raises _ => [core; example]
           | Returns _ => [core; example; Main.start token]
           end
       end in
     let body :=
       match w entered core with
       | Raises e => Raises e
       | Returns _ =>
           match w (entered ++ [core]) example with
           | Raises e => Raises e
           | Returns _ => w (entered ++ [core; example]) (Main.start token)
           end
       end in
     Main.run_bot environ w tr =
       match w tr Main.aenter with
       | Raises e => (entered, Raises e)
       | Returns _ =>
           (entered ++ calls ++ [Main.aexit],
            match w (entered ++ calls) Main.aexit with
            | Returns _ => body
            | Raises e => Raises e
            end)
       end).
Proof.
  unfold Main.run_bot, Main.async_with, mbind, eff_bind, bind, lift, try_finally,
    Config.environ_item, perform.
  rewrite assert_envs_exist_cases. split.
  - by intros ->.
  - intros token Hsome. cbv zeta. rewrite Hsome.
    destruct (w tr Main.aenter) as [[] | e0]; [| done].
    destruct (w (tr ++ [Main.aenter]) (Main.add_cog "CoreCog")) as [[] | e1].
    + destruct (w ((tr ++ [Main.aenter]) ++ [Main.add_cog "CoreCog"])
                  (Main.add_cog "ExampleCog")) as [[] | e2].
      * rewrite <- !app_assoc. cbn [app]. by destruct (w _ Main.aexit).
      * rewrite <- !app_assoc. cbn [app]. by destruct (w _ Main.aexit).
    + rewrite <- !app_assoc. cbn [app]. by destruct (w _ Main.aexit).
Qed.

Lemma main_run_bot_paths_witness :
  Main.run_bot ∅ (λ _ _, Returns ()) [] =
    ([], Raises (MissingConfigurationException Config.missing_message)) ∧
  Main.run_bot {[ "TOKEN" := "abc" ]}
    (λ _ a, if a is Main.aenter then Raises HTTPException else Returns ()) [] =
    ([Main.aenter], Raises HTTPException) ∧
  Main.run_bot {[ "TOKEN" := "abc" ]}
    (λ _ a, if a is Main.add_cog "ExampleCog" then Raises (OtherException "TypeError")
            else Returns ()) [] =
    ([Main.aenter; Main.add_cog "CoreCog"; Main.add_cog "ExampleCog"; Main.aexit],
     Raises (OtherException "TypeError")).
Proof.
  assert ((∅ : gmap string string) !! "TOKEN" = None) as Hnone by reflexivity.
  assert (({[ "TOKEN" := "abc" ]} : gmap string string) !! "TOKEN" = Some "abc")
    as Hsome by reflexivity.
  split_and!.
  - exact (proj1 (main_run_bot_paths ∅ (λ _ _, Returns ()) []) Hnone).
  - exact (proj2 (main_run_bot_paths {[ "TOKEN" := "abc" ]}
                    (λ _ a, if a is Main.aenter then Raises HTTPException
                            else Returns ()) [])
                 "abc" Hsome).
  - exact (proj2 (main_run_bot_paths {[ "TOKEN" := "abc" ]}
                    (λ _ a, if a is Main.add_cog "ExampleCog"
                            then Raises (OtherException "TypeError")
                            else Returns ()) [])
                 "abc" Hsome).
Defined.

(** X17.  After a selection of option values, the log is the selection line
    followed by one line for each later press or submission (of a value
    without line break), in the order they came; equal presses give equal
    lines, none is dropped or merged. *)
Theorem log_after_selection (values : list string) (es : list Event)
    (v : ComponentView) :
  Forall (λ x, x ∈ option_values) values →
  forallb Message.adds_one_line es = true →
  text_log (text (run es (select values v))) =
    Message.line_of (ev_select values) :: map Message.line_of es.
Proof.
  intros Hvalues Hes.
  assert (text_log (text (select values v)) = [Message.line_of (ev_select values)])
    as Hfirst.
  { unfold Message.line_of.
    rewrite text_log_nonempty by apply text_select_nonempty.
    rewrite text_select. apply split_lines_no_newline.
    rewrite no_newline_app, no_newline_join; [done | done |].
    by apply option_values_no_newline. }
  change (Message.line_of (ev_select values) :: map Message.line_of es)
    with ([Message.line_of (ev_select values)] ++ map Message.line_of es).
  rewrite <- Hfirst. clear Hfirst Hvalues.
  pose proof (text_select_nonempty values v) as Hne.
  revert Hne. generalize (select values v). clear v.
  induction es as [|e es IH]; intros v Hv; [by rewrite app_nil_r |].
  simpl in Hes. apply andb_true_iff in Hes as [He Hes].
  rewrite run_cons, (IH Hes _ (step_text_nonempty e v)).
  destruct e as [? | b | value]; [done | |].
  - change (fst (step (ev_press b) v)) with (press b v).
    rewrite text_log_press by done. by rewrite <- app_assoc.
  - change (fst (step (ev_submit_modal value) v)) with (submit_modal value v).
    rewrite text_submit_modal, text_log_append, modal_line by done.
    by rewrite <- app_assoc.
Qed.

Lemma log_after_selection_witness :
  text_log (text (run [ev_press button2; ev_press button2; ev_submit_modal "ok"]
                      (select ["Value3"] ComponentView_init))) =
    ["Value3 selected in select option"; " Button2 was pressed!";
     " Button2 was pressed!"; " Modal was called and value entered is ok"].
Proof.
  refine (log_after_selection ["Value3"]
            [ev_press button2; ev_press button2; ev_submit_modal "ok"]
            ComponentView_init _ eq_refl).
  change option_values with ["Value1"; "Value2"; "Value3"].
  repeat constructor.
Defined.
